(** * structdiff: the diff / changeset / apply engine of [structdiff/src/lib.rs]

    Shallow embedding of the core of the crate: the [Field] change
    representation, the scalar implementations ([impl_scalar],
    [impl_scalar_ref]), [Option<T>], [Result<T, E>] and [Vec<T>] with their
    changeset and action types, and the [Apply] implementations.

    Rust's trait [Diff] is indexed by the type; we index by a code [ty] of
    the core diffable types, and compute the value type [val t], the
    associated [Changeset t] and [Action t] from it.  [apply] takes the
    target by value and returns the mutated target, or the panic the Rust
    code raises ([unreachable!] or an out-of-bounds [target[index]]). *)

From Stdlib Require Import ZArith String.
From Stdlib Require Import Floats.SpecFloat.
From stdpp Require Import base list.

(** ** Scalar types of [impl_scalar!] / [impl_scalar_ref!] *)

Inductive scalar_ty :=
  | I8 | U8 | I16 | U16 | I32 | U32 | I64 | U64 | I128 | U128 | Isize | Usize
  | F32 | F64 | Bool | Unit | Str.

(** Integers as [Z] (no arithmetic happens on them here), floats as IEEE
    754 values ([spec_float]: signed zeros, infinities, NaN), [String] as
    [string]. *)
Definition sval (s : scalar_ty) : Type :=
  match s with
  | F32 | F64 => spec_float
  | Bool => bool
  | Unit => unit
  | Str => string
  | _ => Z
  end.

(** [PartialEq] of the scalar types: IEEE equality on floats
    ([NaN != NaN], [0.0 == -0.0]). *)
Definition scalar_eqb (s : scalar_ty) : sval s -> sval s -> bool :=
  match s return sval s -> sval s -> bool with
  | F32 | F64 => SFeqb
  | Bool => Bool.eqb
  | Unit => fun _ _ => true
  | Str => String.eqb
  | I8 | U8 | I16 | U16 | I32 | U32 | I64 | U64 | I128 | U128 | Isize | Usize
      => Z.eqb
  end.

(** ** Core diffable types *)

Inductive ty :=
  | TScalar (s : scalar_ty)
  | TOption (t : ty)
  | TResult (t e : ty)
  | TVec (t : ty).

(** Rust's [Result<T, E>]. *)
Inductive Result (T E : Type) :=
  | Ok (x : T)
  | Err (x : E).
Arguments Ok {T E} x.
Arguments Err {T E} x.

Fixpoint val (t : ty) : Type :=
  match t with
  | TScalar s => sval s
  | TOption t => option (val t)
  | TResult t e => Result (val t) (val e)
  | TVec t => list (val t)
  end.

(** ** [enum Field<V, K, A>] *)

Inductive Field (V K A : Type) :=
  | FNone
  | FSet (v : V)
  | FChanges (k : K)
  | FActions (l : list A).
Arguments FNone {V K A}.
Arguments FSet {V K A} v.
Arguments FChanges {V K A} k.
Arguments FActions {V K A} l.

(** [enum VecAction<T>] *)
Inductive VecAction (V K A : Type) :=
  | VSet (index : nat) (f : Field V K A)
  | Push (v : V)
  | Truncate (len : nat)
  | Append (items : list V).
Arguments VSet {V K A} index f.
Arguments Push {V K A} v.
Arguments Truncate {V K A} len.
Arguments Append {V K A} items.

(** [struct VecChangeset<T>(Field<T, ...>)] *)
Inductive VecChangeset (V K A : Type) :=
  | MkVecChangeset (f : Field V K A).
Arguments MkVecChangeset {V K A} f.

(** [enum OptionChangeset<T>] *)
Inductive OptionChangeset (V K A : Type) :=
  | NoneChangeset (f : Field unit unit unit)
  | SomeChangeset (f : Field V K A).
Arguments NoneChangeset {V K A} f.
Arguments SomeChangeset {V K A} f.

(** [enum ResultChangeset<T, E>] *)
Inductive ResultChangeset (T TK TA E EK EA : Type) :=
  | OkChangeset (f : Field T TK TA)
  | ErrChangeset (f : Field E EK EA).
Arguments OkChangeset {T TK TA E EK EA} f.
Arguments ErrChangeset {T TK TA E EK EA} f.

(** The associated types [<T as Diff>::Changeset] and [<T as Diff>::Action]. *)
Fixpoint Changeset (t : ty) : Type :=
  match t with
  | TScalar _ => unit
  | TOption t => OptionChangeset (val t) (Changeset t) (Action t)
  | TResult t e =>
      ResultChangeset (val t) (Changeset t) (Action t)
                      (val e) (Changeset e) (Action e)
  | TVec t => VecChangeset (val t) (Changeset t) (Action t)
  end
with Action (t : ty) : Type :=
  match t with
  | TScalar _ | TOption _ | TResult _ _ => unit
  | TVec t => VecAction (val t) (Changeset t) (Action t)
  end.

Abbreviation FieldOf t := (Field (val t) (Changeset t) (Action t)).

(** ** Panics and the outcome of [apply] *)

Inductive panic :=
  | IndexOutOfBounds (index len : nat)   (** [target[index]] with [index >= len] *)
  | Unreachable.                         (** [unreachable!("... logic error")] *)

Inductive outcome (A : Type) :=
  | Done (v : A)
  | Panic (p : panic).
Arguments Done {A} v.
Arguments Panic {A} p.

(** [actions.into_iter().for_each(|x| x.apply(target))] *)
Fixpoint apply_all {V A} (app : A -> V -> outcome V) (l : list A) (v : V)
  : outcome V :=
  match l with
  | [] => Done v
  | a :: l' =>
      match app a v with
      | Done v' => apply_all app l' v'
      | Panic p => Panic p
      end
  end.

(** [impl Apply<V> for Field<V, K, A>] *)
Definition field_apply {V K A} (apply_k : K -> V -> outcome V)
  (apply_a : A -> V -> outcome V) (f : Field V K A) (target : V) : outcome V :=
  match f with
  | FNone => Done target
  | FSet value => Done value
  | FChanges changeset => apply_k changeset target
  | FActions actions => apply_all apply_a actions target
  end.

(** [impl Apply<Vec<T>> for VecAction<T>]; [apply_f] is the element's
    [Field::apply]. *)
Definition vec_action_apply {V K A} (apply_f : Field V K A -> V -> outcome V)
  (a : VecAction V K A) (target : list V) : outcome (list V) :=
  match a with
  | VSet index field =>
      match target !! index with
      | Some x =>
          match apply_f field x with
          | Done x' => Done (<[index := x']> target)
          | Panic p => Panic p
          end
      | None => Panic (IndexOutOfBounds index (length target))
      end
  | Push value => Done (target ++ [value])
  | Truncate len => Done (firstn len target)
  | Append items => Done (target ++ items)
  end.

(** [Apply] for [<T as Diff>::Changeset] and [<T as Diff>::Action]. *)
Fixpoint apply_cs (t : ty) : Changeset t -> val t -> outcome (val t) :=
  match t return Changeset t -> val t -> outcome (val t) with
  | TScalar _ => fun _ target => Done target            (* impl Apply<T> for () *)
  | TOption t' => fun c target =>
      match c with
      | NoneChangeset _ => Done None
      | SomeChangeset value =>
          match target with
          | Some v =>
              match field_apply (apply_cs t') (apply_act t') value v with
              | Done v' => Done (Some v')
              | Panic p => Panic p
              end
          | None => Panic Unreachable
          end
      end
  | TResult t' e' => fun c target =>
      match c with
      | OkChangeset x =>
          match target with
          | Ok inner =>
              match field_apply (apply_cs t') (apply_act t') x inner with
              | Done v' => Done (Ok v')
              | Panic p => Panic p
              end
          | Err _ => Panic Unreachable
          end
      | ErrChangeset x =>
          match target with
          | Err inner =>
              match field_apply (apply_cs e') (apply_act e') x inner with
              | Done v' => Done (Err v')
              | Panic p => Panic p
              end
          | Ok _ => Panic Unreachable
          end
      end
  | TVec t' => fun _ target => Done target             (* VecChangeset: no-op *)
  end
with apply_act (t : ty) : Action t -> val t -> outcome (val t) :=
  match t return Action t -> val t -> outcome (val t) with
  | TScalar _ | TOption _ | TResult _ _ => fun _ target => Done target
  | TVec t' => vec_action_apply (field_apply (apply_cs t') (apply_act t'))
  end.

(** [Field::apply] at type [t]. *)
Definition apply (t : ty) : FieldOf t -> val t -> outcome (val t) :=
  field_apply (apply_cs t) (apply_act t).

(** ** [PartialEq] (derived for [Option], [Result], [Vec]) *)

(** Slice equality: equal lengths and pairwise [==]. *)
Fixpoint list_eqb {V} (eq : V -> V -> bool) (xs ys : list V) : bool :=
  match xs, ys with
  | [], [] => true
  | x :: xs', y :: ys' => eq x y && list_eqb eq xs' ys'
  | _, _ => false
  end.

Fixpoint eqb (t : ty) : val t -> val t -> bool :=
  match t return val t -> val t -> bool with
  | TScalar s => scalar_eqb s
  | TOption t' => fun a b =>
      match a, b with
      | None, None => true
      | Some x, Some y => eqb t' x y
      | _, _ => false
      end
  | TResult t' e' => fun a b =>
      match a, b with
      | Ok x, Ok y => eqb t' x y
      | Err x, Err y => eqb e' x y
      | _, _ => false
      end
  | TVec t' => list_eqb (eqb t')
  end.

(** ** [Diff::changeset] *)

(** The loop [for i in 0..min] of [<Vec<T> as Diff>::changeset]: one
    [VecAction::Set(i, changeset)] per position whose element changeset is
    not [Field::None]; [i] starts at [index]. *)
Fixpoint set_actions {V K A} (cs : V -> V -> Field V K A) (index : nat)
  (xs ys : list V) : list (VecAction V K A) :=
  match xs, ys with
  | x :: xs', y :: ys' =>
      match cs x y with
      | FNone => set_actions cs (S index) xs' ys'
      | changeset => VSet index changeset :: set_actions cs (S index) xs' ys'
      end
  | _, _ => []
  end.

(** The action list of [<Vec<T> as Diff>::changeset] once [self != other]. *)
Definition vec_changes {V K A} (cs : V -> V -> Field V K A) (self other : list V)
  : list (VecAction V K A) :=
  let min := Nat.min (length self) (length other) in
  set_actions cs 0 self other ++
  (if length other <? length self then [Truncate (length other)]
   else if length self <? length other then [Append (skipn min other)]
   else []).

Fixpoint changeset (t : ty) : val t -> val t -> FieldOf t :=
  match t return val t -> val t -> FieldOf t with
  | TScalar s => fun self other =>
      if negb (scalar_eqb s self other) then FSet other else FNone
  | TOption t' => fun self other =>
      if eqb (TOption t') self other then FNone else
      match self, other with
      | None, None => FChanges (NoneChangeset FNone)
      | Some a, Some b => FChanges (SomeChangeset (changeset t' a b))
      | _, v => FSet v
      end
  | TResult t' e' => fun self other =>
      if eqb (TResult t' e') self other then FNone else
      match self, other with
      | Ok a, Ok b => FChanges (OkChangeset (changeset t' a b))
      | Err a, Err b => FChanges (ErrChangeset (changeset e' a b))
      | _, v => FSet v
      end
  | TVec t' => fun self other =>
      if eqb (TVec t') self other then FNone else
      FActions (vec_changes (changeset t') self other)
  end.

(** Types whose scalar leaves are not floating point. *)
Fixpoint float_free (t : ty) : bool :=
  match t with
  | TScalar F32 | TScalar F64 => false
  | TScalar _ => true
  | TOption t' | TVec t' => float_free t'
  | TResult t' e' => float_free t' && float_free e'
  end.

(** ** Examples (the test cases of the spec) *)

Definition u32 : ty := TScalar U32.
Definition string_t : ty := TScalar Str.

Example vec_truncate_ex :
  changeset (TVec u32) [1;2;3;4]%Z [1;2]%Z = FActions [Truncate 2].
Proof. reflexivity. Qed.

Example vec_append_ex :
  changeset (TVec u32) [1;2]%Z [1;2;3;4]%Z = FActions [Append [3;4]%Z]
  /\ apply (TVec u32) (FActions [Append [3;4]%Z]) [1;2]%Z = Done [1;2;3;4]%Z.
Proof. split; reflexivity. Qed.

Example vec_positional_ex :
  changeset (TVec string_t) ["A";"X";"C"]%string ["A";"B";"C";"D";"D"]%string
  = FActions [VSet 1 (FSet "B"%string); Append ["D";"D"]%string]
  /\ apply (TVec string_t)
       (changeset (TVec string_t) ["A";"X";"C"]%string ["A";"B";"C";"D";"D"]%string)
       ["A";"X";"C"]%string
     = Done ["A";"B";"C";"D";"D"]%string.
Proof. split; vm_compute; reflexivity. Qed.

(** ** The positional [Set] loop of [Vec::changeset] under [apply] *)

Definition field_is_none {V K A} (f : Field V K A) : bool :=
  match f with FNone => true | _ => false end.

Lemma field_is_none_eq {V K A} (f : Field V K A) :
  field_is_none f = true -> f = FNone.
Proof. destruct f; simpl; congruence. Qed.

Lemma set_actions_cons {V K A} (cs : V -> V -> Field V K A) i x xs y ys :
  set_actions cs i (x :: xs) (y :: ys) =
  (if field_is_none (cs x y) then [] else [VSet i (cs x y)])
    ++ set_actions cs (S i) xs ys.
Proof. simpl. destruct (cs x y); reflexivity. Qed.

Lemma set_actions_index {V K A} (cs : V -> V -> Field V K A) xs :
  forall ys s i f, In (VSet i f) (set_actions cs s xs ys) ->
  s <= i < s + length xs.
Proof.
  induction xs as [|x xs IH]; intros ys s i f Hin; [destruct Hin|].
  destruct ys as [|y ys]; [destruct Hin|].
  rewrite set_actions_cons in Hin. apply in_app_or in Hin as [Hin|Hin].
  - destruct (field_is_none (cs x y)); simpl in Hin; [done|].
    destruct Hin as [Heq|[]]. injection Heq as -> _. simpl; lia.
  - apply IH in Hin. simpl; lia.
Qed.

Lemma apply_all_app {V A} (app : A -> V -> outcome V) l1 l2 v :
  apply_all app (l1 ++ l2) v =
  match apply_all app l1 v with
  | Done v' => apply_all app l2 v'
  | Panic p => Panic p
  end.
Proof.
  revert v; induction l1 as [|a l1 IH]; intros v; simpl; [done|].
  destruct (app a v); [apply IH|done].
Qed.

Section VecSets.
Context {V K A : Type}.
Variable cs : V -> V -> Field V K A.
Variable apply_f : Field V K A -> V -> outcome V.
Hypothesis apply_f_none : forall x, apply_f FNone x = Done x.
(** [Rel y z]: [z] is an acceptable result of patching towards [y]. *)
Variable Rel : V -> V -> Prop.
Hypothesis apply_f_cs : forall x y, exists z, apply_f (cs x y) x = Done z /\ Rel y z.

Local Abbreviation run := (apply_all (vec_action_apply apply_f)).

Lemma set_step pre x xs y :
  exists z,
    run (if field_is_none (cs x y) then [] else [VSet (length pre) (cs x y)])
        (pre ++ x :: xs) = Done (pre ++ z :: xs) /\ Rel y z.
Proof.
  destruct (apply_f_cs x y) as [z [Hz HR]].
  destruct (field_is_none (cs x y)) eqn:En.
  - apply field_is_none_eq in En. rewrite En, apply_f_none in Hz.
    injection Hz as <-. exists x. done.
  - exists z. split; [|done]. simpl.
    rewrite list_lookup_middle by done. rewrite Hz.
    rewrite insert_app_r_alt by lia. rewrite Nat.sub_diag. done.
Qed.

Lemma set_actions_apply xs :
  forall ys pre,
  exists zs,
    run (set_actions cs (length pre) xs ys) (pre ++ xs)
      = Done (pre ++ zs ++ drop (length ys) xs)
    /\ Forall2 Rel (take (length xs) ys) zs.
Proof.
  induction xs as [|x xs IH]; intros ys pre.
  - exists []. rewrite skipn_nil. simpl. rewrite !app_nil_r. done.
  - destruct ys as [|y ys].
    { exists []. split; [done|constructor]. }
    rewrite set_actions_cons, apply_all_app.
    destruct (set_step pre x xs y) as [z [Hz HR]]. rewrite Hz.
    destruct (IH ys (pre ++ [z])) as [zs [Hzs HF]].
    rewrite length_app, Nat.add_1_r, <- app_assoc in Hzs. simpl in Hzs.
    exists (z :: zs). rewrite Hzs, <- app_assoc. simpl.
    split; [done|]. constructor; done.
Qed.

Lemma set_actions_prefix xs :
  forall ys pre k,
  exists v,
    run (take k (set_actions cs (length pre) xs ys)) (pre ++ xs) = Done v
    /\ length v = length pre + length xs.
Proof.
  induction xs as [|x xs IH]; intros ys pre k.
  - exists (pre ++ []). cbn [set_actions]. rewrite firstn_nil.
    split; [done|]. rewrite length_app; done.
  - destruct ys as [|y ys].
    { exists (pre ++ x :: xs). cbn [set_actions]. rewrite firstn_nil.
      split; [done|].
      rewrite length_app; done. }
    rewrite set_actions_cons.
    destruct (set_step pre x xs y) as [z [Hz _]].
    destruct (IH ys (pre ++ [z]) (k - length (if field_is_none (cs x y) then []
                else [VSet (length pre) (cs x y)]))) as [v [Hv Hlen]].
    rewrite length_app, Nat.add_1_r, <- app_assoc in Hv. simpl in Hv.
    destruct (field_is_none (cs x y)) eqn:En.
    + simpl in Hv. rewrite Nat.sub_0_r in Hv. exists v.
      injection Hz as Hz. apply app_inv_head in Hz. injection Hz as <-.
      split; [done|]. rewrite Hlen, length_app; simpl; lia.
    + destruct k as [|k].
      * exists (pre ++ x :: xs). split; [done|]. rewrite length_app; done.
      * rewrite firstn_app, apply_all_app.
        replace (take (S k) [VSet (length pre) (cs x y)])
          with [VSet (length pre) (cs x y)] by (simpl; rewrite firstn_nil; done).
        rewrite Hz. exists v. split; [done|].
        rewrite Hlen, length_app; simpl; lia.
Qed.
End VecSets.

(** ** Equality facts *)

Lemma scalar_eqb_ff s x y :
  float_free (TScalar s) = true -> scalar_eqb s x y = true <-> x = y.
Proof.
  destruct s; simpl; try discriminate; intros _;
    try apply Z.eqb_eq; try apply Bool.eqb_true_iff; try apply String.eqb_eq.
  destruct x, y; done.
Qed.

Lemma list_eqb_Forall2 {V} (eq : V -> V -> bool) xs ys :
  list_eqb eq xs ys = true <-> Forall2 (fun x y => eq x y = true) xs ys.
Proof.
  revert ys; induction xs as [|x xs IH]; intros [|y ys]; simpl.
  - split; constructor.
  - split; [done|]. intros H; inversion H.
  - split; [done|]. intros H; inversion H.
  - rewrite andb_true_iff, IH. split.
    + intros [H1 H2]. by constructor.
    + intros H; inversion H; subst; done.
Qed.

Lemma eqb_ff t :
  float_free t = true -> forall x y, eqb t x y = true <-> x = y.
Proof.
  induction t as [s|t IH|t IHt e IHe|t IH]; simpl; intros Hff.
  - intros x y. by apply scalar_eqb_ff.
  - intros [x|] [y|]; try done. rewrite (IH Hff). split; congruence.
  - apply andb_prop in Hff as [Ht He].
    intros [x|x] [y|y]; try done.
    + rewrite (IHt Ht). split; congruence.
    + rewrite (IHe He). split; congruence.
  - intros xs ys. rewrite list_eqb_Forall2. split.
    + induction 1 as [|x y xs ys Hxy _ IHl]; [done|].
      apply (IH Hff) in Hxy. congruence.
    + intros <-. induction xs; constructor; [by apply IH|done].
Qed.

(** [changeset] returns [Field::None] exactly on [==]-equal inputs. *)
Lemma changeset_none_iff t a b :
  changeset t a b = FNone <-> eqb t a b = true.
Proof.
  destruct t as [s|t|t e|t]; simpl.
  - destruct (scalar_eqb s a b); simpl; split; done.
  - destruct (eqb (TOption t) a b) eqn:E; simpl in *; rewrite ?E;
      [done|]. destruct a, b; simpl in *; rewrite ?E; split; done.
  - destruct (eqb (TResult t e) a b) eqn:E; simpl in *; rewrite ?E;
      [done|]. destruct a, b; simpl in *; rewrite ?E; split; done.
  - destruct (list_eqb (eqb t) a b); split; done.
Qed.

(** ** [apply] after [changeset] *)

(** [r] is an acceptable result of patching towards [b]: it compares
    equal to [b] whenever [b] does to itself, and is [b] itself when the
    type has no float leaves. *)
Definition patched (t : ty) (b r : val t) : Prop :=
  (eqb t b b = true -> eqb t r b = true) /\ (float_free t = true -> r = b).

Lemma patched_refl t b : patched t b b.
Proof. split; auto. Qed.

Lemma patched_of_eqb t a b : eqb t a b = true -> patched t b a.
Proof. intros E. split; [auto|]. intros Hff. by apply (eqb_ff t Hff). Qed.

Lemma patched_vec t bs rs :
  Forall2 (patched t) bs rs -> patched (TVec t) bs rs.
Proof.
  induction 1 as [|b r bs rs [H1 H2] _ [IH1 IH2]]; [split; done|].
  split; simpl.
  - intros Hb. apply andb_prop in Hb as [Hb Hbs].
    apply andb_true_intro. split; [auto|]. by apply IH1.
  - intros Hff. f_equal; auto.
Qed.

Lemma Forall2_patched_refl t bs : Forall2 (patched t) bs bs.
Proof. induction bs; constructor; [apply patched_refl|done]. Qed.

(** Unfolding equations of [apply]. *)
Lemma apply_none t x : apply t FNone x = Done x.
Proof. reflexivity. Qed.

Lemma apply_some_changeset t f x :
  apply (TOption t) (FChanges (SomeChangeset f)) (Some x) =
  match apply t f x with Done v => Done (Some v) | Panic p => Panic p end.
Proof. reflexivity. Qed.

Lemma apply_ok_changeset t e f x :
  apply (TResult t e) (FChanges (OkChangeset f)) (Ok x) =
  match apply t f x with Done v => Done (Ok v) | Panic p => Panic p end.
Proof. reflexivity. Qed.

Lemma apply_err_changeset t e f x :
  apply (TResult t e) (FChanges (ErrChangeset f)) (Err x) =
  match apply e f x with Done v => Done (Err v) | Panic p => Panic p end.
Proof. reflexivity. Qed.

Lemma apply_vec_actions t l v :
  apply (TVec t) (FActions l) v = apply_all (vec_action_apply (apply t)) l v.
Proof. reflexivity. Qed.

Lemma changeset_vec t a b :
  changeset (TVec t) a b =
  if eqb (TVec t) a b then FNone else FActions (vec_changes (changeset t) a b).
Proof. reflexivity. Qed.

Lemma apply_changeset_patched t :
  forall a b, exists r, apply t (changeset t a b) a = Done r /\ patched t b r.
Proof.
  induction t as [s|t IH|t IHt e IHe|t IH]; intros a b.
  - cbn [changeset]. destruct (scalar_eqb s a b) eqn:E; simpl.
    + exists a. split; [done|]. by apply patched_of_eqb.
    + exists b. split; [done|]. apply patched_refl.
  - cbn [changeset].
    destruct (eqb (TOption t) a b) eqn:E.
    { exists a. split; [done|]. by apply patched_of_eqb. }
    destruct a as [x|], b as [y|]; try done.
    + rewrite apply_some_changeset.
      destruct (IH x y) as [r [Hr [H1 H2]]]. rewrite Hr.
      exists (Some r). split; [done|]. split; simpl; [done|].
      intros Hff. f_equal. auto.
    + exists None. split; [done|]. apply patched_refl.
    + exists (Some y). split; [done|]. apply patched_refl.
  - cbn [changeset].
    destruct (eqb (TResult t e) a b) eqn:E.
    { exists a. split; [done|]. by apply patched_of_eqb. }
    destruct a as [x|x], b as [y|y].
    + rewrite apply_ok_changeset.
      destruct (IHt x y) as [r [Hr [H1 H2]]]. rewrite Hr.
      exists (Ok r). split; [done|]. split; simpl; [done|].
      intros Hff. apply andb_prop in Hff as [Hff _]. f_equal. auto.
    + exists (Err y). split; [done|]. apply patched_refl.
    + exists (Ok y). split; [done|]. apply patched_refl.
    + rewrite apply_err_changeset.
      destruct (IHe x y) as [r [Hr [H1 H2]]]. rewrite Hr.
      exists (Err r). split; [done|]. split; simpl; [done|].
      intros Hff. apply andb_prop in Hff as [_ Hff]. f_equal. auto.
  - revert a b.
    change (forall a b : list (val t), exists r,
      apply (TVec t) (changeset (TVec t) a b) a = Done r /\ patched (TVec t) b r).
    intros a b. rewrite changeset_vec.
    destruct (eqb (TVec t) a b) eqn:E.
    { exists a. split; [done|]. by apply patched_of_eqb. }
    rewrite apply_vec_actions. unfold vec_changes. rewrite apply_all_app.
    destruct (set_actions_apply (changeset t) (apply t) (apply_none t)
                (patched t) IH a b []) as [zs [Hrun HF]].
    cbn [length app] in Hrun. rewrite Hrun.
    pose proof (Forall2_length _ _ _ HF) as Hlen. rewrite length_take in Hlen.
    destruct (length b <? length a) eqn:L1; [|destruct (length a <? length b) eqn:L2].
    + apply Nat.ltb_lt in L1.
      exists zs. simpl. rewrite take_app_length' by lia. split; [done|].
      apply patched_vec. rewrite take_ge in HF by lia. done.
    + apply Nat.ltb_lt in L2. apply Nat.ltb_ge in L1.
      rewrite (drop_ge a) by lia. rewrite Nat.min_l by lia.
      exists (zs ++ drop (length a) b). split; [simpl; by rewrite app_nil_r|].
      apply patched_vec. rewrite <- (take_drop (length a) b) at 1.
      apply Forall2_app; [done|apply Forall2_patched_refl].
    + apply Nat.ltb_ge in L1, L2.
      rewrite (drop_ge a) by lia. rewrite take_ge in HF by lia.
      exists zs. split; [simpl; by rewrite app_nil_r|].
      by apply patched_vec.
Qed.

(** ** The sequence diff of the spec, §4.3, in its own words *)

(** For every [i] in [0, min(m, n)] a [Set(i, nested)] when the nested
    changeset is not [None]; then one [Truncate(n)] if [m > n] and one
    [Append(other[min..])] if [m < n]. *)
Definition spec_vec_actions {V K A} (cs : V -> V -> Field V K A)
  (self other : list V) : list (VecAction V K A) :=
  let m := length self in
  let n := length other in
  let k := Nat.min m n in
  flat_map (fun '(i, (x, y)) =>
              if field_is_none (cs x y) then [] else [VSet i (cs x y)])
           (combine (seq 0 k) (combine self other))
  ++ (if n <? m then [Truncate n] else [])
  ++ (if m <? n then [Append (drop k other)] else []).

Lemma set_actions_flat_map {V K A} (cs : V -> V -> Field V K A) xs :
  forall ys s,
  set_actions cs s xs ys =
  flat_map (fun '(i, (x, y)) =>
              if field_is_none (cs x y) then [] else [VSet i (cs x y)])
           (combine (seq s (Nat.min (length xs) (length ys))) (combine xs ys)).
Proof.
  induction xs as [|x xs IH]; intros [|y ys] s; try done.
  rewrite set_actions_cons, IH. done.
Qed.

Lemma vec_changes_spec {V K A} (cs : V -> V -> Field V K A) xs ys :
  vec_changes cs xs ys = spec_vec_actions cs xs ys.
Proof.
  unfold vec_changes, spec_vec_actions. rewrite set_actions_flat_map. f_equal.
  destruct (length ys <? length xs) eqn:L1; destruct (length xs <? length ys) eqn:L2;
    try done.
  apply Nat.ltb_lt in L1, L2. lia.
Qed.

(** Only the positional part of the action list holds [Set]s. *)
Lemma lookup_vec_changes_set {V K A} (cs : V -> V -> Field V K A) xs ys k i f :
  vec_changes cs xs ys !! k = Some (VSet i f) ->
  set_actions cs 0 xs ys !! k = Some (VSet i f)
  /\ k < length (set_actions cs 0 xs ys).
Proof.
  unfold vec_changes; cbv zeta. intros Hk.
  destruct (decide (k < length (set_actions cs 0 xs ys))) as [Hlt|Hge].
  - rewrite lookup_app_l in Hk by done. done.
  - rewrite lookup_app_r in Hk by lia. exfalso.
    destruct (k - length (set_actions cs 0 xs ys)) as [|j];
      destruct (length ys <? length xs); try destruct (length xs <? length ys);
      simpl in Hk; try discriminate.
    all: rewrite lookup_nil in Hk; discriminate.
Qed.

Lemma take_vec_changes {V K A} (cs : V -> V -> Field V K A) xs ys k :
  k < length (set_actions cs 0 xs ys) ->
  take k (vec_changes cs xs ys) = take k (set_actions cs 0 xs ys).
Proof. intros Hk. unfold vec_changes; cbv zeta. apply take_app_le. lia. Qed.

(** ** Float values used in counterexamples *)

Definition f64 : ty := TScalar F64.
Definition pos_zero : spec_float := S754_zero false.
Definition neg_zero : spec_float := S754_zero true.
Definition nan : spec_float := S754_nan.

(** ** Claims *)

(** C1 (as stated): for every [a], [b] of a core diffable type, applying
    [a.changeset(&b)] to a copy of [a] yields a value equal to [b].
    Refuted with [f64] leaves: from [[0.0, NaN]] to [[-0.0, NaN]] the
    result is [[0.0, NaN]], which is neither [b] itself ([0.0] is kept,
    since [0.0 == -0.0]) nor [==] to [b] ([NaN != NaN]). *)
Lemma C1_counterexample :
  apply (TVec f64) (changeset (TVec f64) [pos_zero; nan] [neg_zero; nan])
        [pos_zero; nan] = Done [pos_zero; nan]
  /\ [pos_zero; nan] <> [neg_zero; nan]
  /\ eqb (TVec f64) [pos_zero; nan] [neg_zero; nan] = false.
Proof.
  split; [vm_compute; reflexivity|split; [|vm_compute; reflexivity]].
  intros H. injection H. discriminate.
Qed.

(** C1 (amended): applying [a.changeset(&b)] to [a] never panics and yields
    a value [r]; [r == b] whenever [b == b] (no NaN in [b]), and [r] is
    exactly [b] when the type has no float leaves. *)
Theorem C1_apply_changeset t (a b : val t) :
  exists r, apply t (changeset t a b) a = Done r
    /\ (eqb t b b = true -> eqb t r b = true)
    /\ (float_free t = true -> r = b).
Proof.
  destruct (apply_changeset_patched t a b) as [r [Hr [H1 H2]]]. eauto.
Qed.

Lemma C1_witness :
  apply (TVec u32) (changeset (TVec u32) [1;2;3]%Z [1;5]%Z) [1;2;3]%Z
  = Done [1;5]%Z.
Proof.
  destruct (C1_apply_changeset (TVec u32) [1;2;3]%Z [1;5]%Z) as [r [Hr [_ Hff]]].
  rewrite Hr, (Hff eq_refl). reflexivity.
Defined.

(** C2: [Vec::changeset] is [None] on equal vectors, and otherwise
    [Actions] of the positional [Set]s in increasing index order, then one
    [Truncate(n)] if [m > n] or one [Append(other[min..])] if [m < n]. *)
Theorem C2_vec_changeset_shape t (xs ys : list (val t)) :
  changeset (TVec t) xs ys =
  if eqb (TVec t) xs ys then FNone
  else FActions (spec_vec_actions (changeset t) xs ys).
Proof. rewrite changeset_vec, vec_changes_spec. done. Qed.

(** C3 (as stated): [x.changeset(&x)] is [None] for every [x], floats
    included.  Refuted at the [f64] value NaN: [NaN != NaN], so the
    changeset is [Set(NaN)]. *)
Lemma C3_counterexample :
  changeset f64 nan nan = FSet nan /\ changeset f64 nan nan <> FNone.
Proof. split; [reflexivity|discriminate]. Qed.

(** C3 (amended): [x.changeset(&x)] is [None] exactly when [x == x]; this
    holds for every [x] of a type without float leaves. *)
Theorem C3_changeset_self t (x : val t) :
  (changeset t x x = FNone <-> eqb t x x = true)
  /\ (float_free t = true -> changeset t x x = FNone).
Proof.
  split; [apply changeset_none_iff|].
  intros Hff. apply changeset_none_iff. by apply (eqb_ff t Hff).
Qed.

Lemma C3_witness : changeset (TVec (TOption u32)) [Some 4%Z; None] [Some 4%Z; None] = FNone.
Proof.
  destruct (C3_changeset_self (TVec (TOption u32)) [Some 4%Z; None]) as [_ H].
  apply H. reflexivity.
Defined.

(** C4 (as stated): on [Option], both sides absent gives
    [Changes(NoneChangeset(None))].  Refuted: [None == None], so the
    equality shortcut returns [Field::None] first; the [(None, None)] arm
    is never reached. *)
Lemma C4_counterexample :
  changeset (TOption u32) None None = FNone
  /\ changeset (TOption u32) None None <> FChanges (NoneChangeset FNone).
Proof. split; [reflexivity|discriminate]. Qed.

(** C4 (amended): equal sides (both absent included) give [None]; both
    present and unequal give [Changes(SomeChangeset(x.changeset(&y)))];
    differing presence gives [Set(other)]; [NoneChangeset] is never
    produced. *)
Theorem C4_option_changeset t :
  (forall a b : option (val t),
     eqb (TOption t) a b = true -> changeset (TOption t) a b = FNone)
  /\ (forall x y, eqb t x y = false ->
        changeset (TOption t) (Some x) (Some y)
        = FChanges (SomeChangeset (changeset t x y)))
  /\ changeset (TOption t) None None = FNone
  /\ (forall x, changeset (TOption t) (Some x) None = FSet None)
  /\ (forall y, changeset (TOption t) None (Some y) = FSet (Some y))
  /\ (forall a b f, changeset (TOption t) a b <> FChanges (NoneChangeset f)).
Proof.
  split; [intros a b E; cbn [changeset]; by rewrite E|].
  split; [intros x y E; cbn [changeset]; simpl; by rewrite E|].
  split; [done|]. split; [done|]. split; [done|].
  intros [x|] [y|] f; cbn [changeset]; simpl; try done.
  destruct (eqb t x y); done.
Qed.

Lemma C4_witness :
  changeset (TOption u32) (Some 1%Z) (Some 2%Z)
  = FChanges (SomeChangeset (FSet 2%Z)).
Proof.
  destruct (C4_option_changeset u32) as [_ [H _]].
  etransitivity; [apply (H 1%Z 2%Z eq_refl)|reflexivity].
Defined.

(** C5: a [SomeChangeset] applied to an absent target, an [OkChangeset]
    to an [Err] target and an [ErrChangeset] to an [Ok] target panic
    ([unreachable!]), whatever the nested field. *)
Theorem C5_branch_mismatch_panics :
  (forall t (f : FieldOf t),
     apply (TOption t) (FChanges (SomeChangeset f)) None = Panic Unreachable)
  /\ (forall t e (f : FieldOf t) (x : val e),
        apply (TResult t e) (FChanges (OkChangeset f)) (Err x) = Panic Unreachable)
  /\ (forall t e (f : FieldOf e) (x : val t),
        apply (TResult t e) (FChanges (ErrChangeset f)) (Ok x) = Panic Unreachable).
Proof. repeat split. Qed.

(** C6: every [Set(i, _)] of the action list of [a.changeset(&b)] finds
    [i] in bounds of the target when it is applied, the list being applied
    left to right from [a]; the whole list applies without panicking. *)
Theorem C6_set_indices_in_bounds t (a b : list (val t))
  (acts : list (VecAction (val t) (Changeset t) (Action t)))
  (H : changeset (TVec t) a b = FActions acts) :
  (forall k i f, acts !! k = Some (VSet i f) ->
     exists v, apply_all (vec_action_apply (apply t)) (take k acts) a = Done v
               /\ i < length v)
  /\ exists r, apply (TVec t) (FActions acts) a = Done r.
Proof.
  rewrite changeset_vec in H.
  destruct (eqb (TVec t) a b) eqn:E; [discriminate|]. injection H as <-.
  split.
  - intros k i f Hk. apply lookup_vec_changes_set in Hk as [Hk Hlt].
    rewrite take_vec_changes by done.
    apply list_elem_of_lookup_2, list_elem_of_In, set_actions_index in Hk.
    destruct (set_actions_prefix (changeset t) (apply t) (apply_none t)
                (patched t) (apply_changeset_patched t) a b [] k)
      as [v [Hv Hlen]].
    exists v. split; [done|]. simpl in Hlen. lia.
  - destruct (apply_changeset_patched (TVec t) a b) as [r [Hr _]].
    rewrite changeset_vec, E in Hr. eauto.
Qed.

Lemma C6_witness :
  exists v, apply_all (vec_action_apply (apply u32))
              (take 0 [VSet 1 (FSet 2%Z); Truncate 2]) [1;5;3]%Z = Done v
            /\ 1 < length v.
Proof.
  apply (proj1 (C6_set_indices_in_bounds u32 [1;5;3]%Z [1;2]%Z
                  [VSet 1 (FSet 2%Z); Truncate 2] eq_refl) 0 1 (FSet 2%Z)).
  reflexivity.
Defined.

(** C7: for every scalar type, [a.changeset(&b)] is [Set(b)] iff
    [a != b], and [None] iff [a == b]. *)
Theorem C7_scalar_changeset s (a b : sval s) :
  (changeset (TScalar s) a b = FSet b <-> scalar_eqb s a b = false)
  /\ (changeset (TScalar s) a b = FNone <-> scalar_eqb s a b = true).
Proof. cbn [changeset]. destruct (scalar_eqb s a b); simpl; done. Qed.

(** C8: [VecAction::apply].  [Set(i, field)] applies [field] to the
    element at [i] and panics when [i] is out of bounds; [Push(v)] appends
    [v]; [Truncate(len)] keeps the first [len] elements, a no-op when the
    length is at most [len]; [Append(items)] appends [items] in order. *)
Theorem C8_vec_action_apply t (v : list (val t)) :
  (forall i (f : FieldOf t) x, v !! i = Some x ->
     apply_act (TVec t) (VSet i f) v
     = match apply t f x with
       | Done x' => Done (<[i := x']> v)
       | Panic p => Panic p
       end)
  /\ (forall i (f : FieldOf t), length v <= i ->
        apply_act (TVec t) (VSet i f) v = Panic (IndexOutOfBounds i (length v)))
  /\ (forall x, apply_act (TVec t) (Push x) v = Done (v ++ [x]))
  /\ (forall len, apply_act (TVec t) (Truncate len) v = Done (take len v)
        /\ (length v <= len -> apply_act (TVec t) (Truncate len) v = Done v))
  /\ (forall items, apply_act (TVec t) (Append items) v = Done (v ++ items)).
Proof.
  split; [|split; [|split; [|split]]].
  - intros i f x Hx. cbn [apply_act]. unfold vec_action_apply. rewrite Hx. done.
  - intros i f Hi. cbn [apply_act]. unfold vec_action_apply.
    rewrite lookup_ge_None_2 by done. done.
  - done.
  - intros len. split; [done|]. intros Hl. cbn [apply_act]. simpl.
    rewrite take_ge by done. done.
  - done.
Qed.

Lemma C8_witness :
  apply_act (TVec u32) (Truncate 5) [1;2;3]%Z = Done [1;2;3]%Z.
Proof.
  destruct (C8_vec_action_apply u32 [1;2;3]%Z) as [_ [_ [_ [H _]]]].
  destruct (H 5) as [_ H']. apply H'. simpl. lia.
Defined.

(** C9: applying [Field::None] leaves any target unchanged. *)
Theorem C9_apply_none t (target : val t) : apply t FNone target = Done target.
Proof. reflexivity. Qed.

(** C10: [VecChangeset::apply] is a no-op, so [Field::Changes] on a vector
    leaves it unchanged. *)
Theorem C10_vec_changeset_noop t (c : Changeset (TVec t)) (target : list (val t)) :
  apply_cs (TVec t) c target = Done target
  /\ apply (TVec t) (FChanges c) target = Done target.
Proof. split; reflexivity. Qed.

(** ** Further properties of the core engine *)

Lemma set_actions_only_sets {V K A} (cs : V -> V -> Field V K A) xs :
  forall ys s a, In a (set_actions cs s xs ys) -> exists i f, a = VSet i f.
Proof.
  induction xs as [|x xs IH]; intros [|y ys] s a Hin; try destruct Hin.
  rewrite set_actions_cons in Hin. apply in_app_or in Hin as [Hin|Hin].
  - destruct (field_is_none (cs x y)); simpl in Hin; [done|].
    destruct Hin as [<-|[]]. eauto.
  - eauto.
Qed.

Lemma set_actions_nil {V K A} (cs : V -> V -> Field V K A) xs :
  forall ys s, set_actions cs s xs ys = [] -> length xs = length ys ->
  Forall2 (fun x y => cs x y = FNone) xs ys.
Proof.
  induction xs as [|x xs IH]; intros [|y ys] s Hn Hl; try done.
  rewrite set_actions_cons in Hn.
  destruct (field_is_none (cs x y)) eqn:En; [|done].
  constructor; [by apply field_is_none_eq|]. simpl in *.
  apply (IH ys (S s)); [done|lia].
Qed.

(** [changeset] returns [Field::None] exactly when the two values compare
    equal with [==], at every type. *)
Theorem changeset_none_iff_equal t (a b : val t) :
  changeset t a b = FNone <-> eqb t a b = true.
Proof. apply changeset_none_iff. Qed.

(** Which [Field] cases each [changeset] produces: scalars only [None] or
    [Set(other)]; [Option] and [Result] never [Actions]; [Vec] never
    [Set] nor [Changes] (so the no-op [VecChangeset] is never produced). *)
Theorem changeset_cases :
  (forall s (a b : sval s),
     changeset (TScalar s) a b = FNone \/ changeset (TScalar s) a b = FSet b)
  /\ (forall t (a b : option (val t)) l, changeset (TOption t) a b <> FActions l)
  /\ (forall t e (a b : Result (val t) (val e)) l,
        changeset (TResult t e) a b <> FActions l)
  /\ (forall t (a b : list (val t)) v, changeset (TVec t) a b <> FSet v)
  /\ (forall t (a b : list (val t)) c, changeset (TVec t) a b <> FChanges c).
Proof.
  split; [|split; [|split; [|split]]].
  - intros s a b. cbn [changeset]. destruct (scalar_eqb s a b); auto.
  - intros t a b l. cbn [changeset].
    destruct (eqb (TOption t) a b); [done|]. destruct a, b; done.
  - intros t e a b l. cbn [changeset].
    destruct (eqb (TResult t e) a b); [done|]. destruct a, b; done.
  - intros t a b v. rewrite changeset_vec. destruct (eqb (TVec t) a b); done.
  - intros t a b c. rewrite changeset_vec. destruct (eqb (TVec t) a b); done.
Qed.

(** For unequal vectors the action list of [Vec::changeset] is never
    empty and never contains a [Push]. *)
Theorem vec_changeset_nonempty_no_push t (a b : list (val t))
  (acts : list (VecAction (val t) (Changeset t) (Action t)))
  (H : changeset (TVec t) a b = FActions acts) :
  acts <> [] /\ forall x, ~ In (Push x) acts.
Proof.
  rewrite changeset_vec in H.
  destruct (eqb (TVec t) a b) eqn:E; [discriminate|]. injection H as <-.
  unfold vec_changes; cbv zeta. split.
  - intros Hnil. apply app_eq_nil in Hnil as [Hs Ht].
    destruct (length b <? length a) eqn:L1; [done|].
    destruct (length a <? length b) eqn:L2; [done|].
    apply Nat.ltb_ge in L1, L2.
    apply set_actions_nil in Hs; [|lia].
    assert (Heq : list_eqb (eqb t) a b = true).
    { apply list_eqb_Forall2. eapply Forall2_impl; [exact Hs|].
      intros x y Hxy. by apply changeset_none_iff. }
    change (eqb (TVec t) a b = true) in Heq. congruence.
  - intros x Hin. apply in_app_or in Hin as [Hin|Hin].
    + apply set_actions_only_sets in Hin as (i & f & Hi). discriminate.
    + destruct (length b <? length a); [|destruct (length a <? length b)];
        simpl in Hin; intuition discriminate.
Qed.

Definition u32_acts : list (VecAction (val u32) (Changeset u32) (Action u32)) :=
  [VSet 1 (FSet 2%Z); Truncate 2].

Lemma vec_changeset_nonempty_no_push_witness :
  u32_acts <> [] /\ forall x, ~ In (Push x) u32_acts.
Proof.
  exact (vec_changeset_nonempty_no_push u32 [1;5;3]%Z [1;2]%Z u32_acts eq_refl).
Defined.

(** [Field::Actions] applies its list left to right: the actions of
    [l1 ++ l2] act as those of [l1] followed by those of [l2], and a panic
    in [l1] stops the rest. *)
Theorem apply_actions_app t (l1 l2 : list (Action t)) (target : val t) :
  apply t (FActions (l1 ++ l2)) target =
  match apply t (FActions l1) target with
  | Done v => apply t (FActions l2) v
  | Panic p => Panic p
  end.
Proof. exact (apply_all_app (apply_act t) l1 l2 target). Qed.

(** Types with no [Vec] inside. *)
Fixpoint vec_free (t : ty) : bool :=
  match t with
  | TScalar _ => true
  | TOption t' => vec_free t'
  | TResult t' e' => vec_free t' && vec_free e'
  | TVec _ => false
  end.

(** On a type with no [Vec] inside, applying [a.changeset(&b)] to [b]
    itself leaves [b] unchanged (re-applying a changeset is harmless). *)
Theorem reapply_changeset_vec_free t :
  vec_free t = true -> forall a b, apply t (changeset t a b) b = Done b.
Proof.
  induction t as [s|t IH|t IHt e IHe|t IH]; intros Hvf a b; simpl in Hvf.
  - cbn [changeset]. destruct (scalar_eqb s a b); done.
  - cbn [changeset]. destruct (eqb (TOption t) a b); [done|].
    destruct a as [x|], b as [y|]; try done.
    rewrite apply_some_changeset, (IH Hvf). done.
  - apply andb_prop in Hvf as [Ht He]. cbn [changeset].
    destruct (eqb (TResult t e) a b); [done|].
    destruct a as [x|x], b as [y|y]; try done.
    + rewrite apply_ok_changeset, (IHt Ht). done.
    + rewrite apply_err_changeset, (IHe He). done.
  - done.
Qed.

Lemma reapply_changeset_vec_free_witness :
  apply (TOption f64) (changeset (TOption f64) (Some nan) (Some pos_zero))
        (Some pos_zero) = Done (Some pos_zero).
Proof. exact (reapply_changeset_vec_free (TOption f64) eq_refl (Some nan) (Some pos_zero)). Defined.

(** ** [<Option<T> as Diff>] for an element type outside [ty]

    The same code as the [TOption] cases of [changeset] and [apply_cs],
    parameterised by the element's [PartialEq], [changeset] and
    [Field::apply], so that it applies to the test module's [Bar]. *)

Definition option_eqb {V} (eq : V -> V -> bool) (a b : option V) : bool :=
  match a, b with
  | None, None => true
  | Some x, Some y => eq x y
  | _, _ => false
  end.

Definition option_changeset {V K A} (eq : V -> V -> bool)
  (cs : V -> V -> Field V K A) (self other : option V)
  : Field (option V) (OptionChangeset V K A) unit :=
  if option_eqb eq self other then FNone else
  match self, other with
  | None, None => FChanges (NoneChangeset FNone)
  | Some a, Some b => FChanges (SomeChangeset (cs a b))
  | _, v => FSet v
  end.

Definition option_cs_apply {V K A} (apply_f : Field V K A -> V -> outcome V)
  (c : OptionChangeset V K A) (target : option V) : outcome (option V) :=
  match c with
  | NoneChangeset _ => Done None
  | SomeChangeset value =>
      match target with
      | Some v =>
          match apply_f value v with
          | Done v' => Done (Some v')
          | Panic p => Panic p
          end
      | None => Panic Unreachable
      end
  end.

(** [Field<Option<T>, OptionChangeset<T>, ()>::apply]. *)
Definition option_apply {V K A} (apply_f : Field V K A -> V -> outcome V)
  : Field (option V) (OptionChangeset V K A) unit -> option V -> outcome (option V) :=
  field_apply (option_cs_apply apply_f) (fun _ target => Done target).

Lemma option_changeset_agrees t (a b : option (val t)) :
  changeset (TOption t) a b = option_changeset (eqb t) (changeset t) a b.
Proof. reflexivity. Qed.

Lemma option_apply_agrees t f (target : option (val t)) :
  apply (TOption t) f target = option_apply (apply t) f target.
Proof. destruct f; reflexivity. Qed.

Lemma option_apply_changeset {V K A} (eq : V -> V -> bool)
  (cs : V -> V -> Field V K A) (apply_f : Field V K A -> V -> outcome V)
  (Heq : forall x y, eq x y = true -> x = y)
  (Hcs : forall x y, apply_f (cs x y) x = Done y) a b :
  option_apply apply_f (option_changeset eq cs a b) a = Done b.
Proof.
  unfold option_changeset. destruct (option_eqb eq a b) eqn:E.
  - destruct a, b; simpl in E; try done. by rewrite (Heq _ _ E).
  - destruct a as [x|], b as [y|]; simpl; try done. by rewrite Hcs.
Qed.

Lemma apply_changeset_ff t (Hff : float_free t = true) (a b : val t) :
  apply t (changeset t a b) a = Done b.
Proof.
  destruct (apply_changeset_patched t a b) as [r [Hr [_ H2]]].
  by rewrite Hr, (H2 Hff).
Qed.

(** ** [mod tests]: the hand-written [Diff] / [Apply] impls of the tests *)

Module Tests.

Abbreviation SetField V := (FieldOf (TScalar V)).

(** [struct Bar { field_d: String }], [#[derive(PartialEq)]]. *)
Record Bar := { field_d : string }.

Definition bar_eqb (a b : Bar) : bool := String.eqb (field_d a) (field_d b).

(** [struct BarChangeset { field_d: SetField<String, StringChangeset> }] *)
Record BarChangeset := { bc_field_d : SetField Str }.

(** [impl Diff for Bar] *)
Definition bar_changeset (self other : Bar) : Field Bar BarChangeset unit :=
  if bar_eqb self other then FNone else
  FChanges {| bc_field_d :=
                if negb (String.eqb (field_d self) (field_d other))
                then FSet (field_d other) else FNone |}.

(** [impl Apply<Bar> for BarChangeset] *)
Definition bar_cs_apply (c : BarChangeset) (target : Bar) : outcome Bar :=
  match apply (TScalar Str) (bc_field_d c) (field_d target) with
  | Done d => Done {| field_d := d |}
  | Panic p => Panic p
  end.

Definition bar_apply : Field Bar BarChangeset unit -> Bar -> outcome Bar :=
  field_apply bar_cs_apply (fun _ target => Done target).

(** [enum SomeEnum], [#[derive(PartialEq)]]. *)
Inductive SomeEnum :=
  | SomeEnum_None
  | SomeEnum_Field1 (s : string)
  | SomeEnum_Field2 (x : sval U32)
  | SomeEnum_Field3 (b : Bar)
  | SomeEnum_Field4 (x y : sval U16).

Definition someenum_eqb (a b : SomeEnum) : bool :=
  match a, b with
  | SomeEnum_None, SomeEnum_None => true
  | SomeEnum_Field1 x, SomeEnum_Field1 y => String.eqb x y
  | SomeEnum_Field2 x, SomeEnum_Field2 y => Z.eqb x y
  | SomeEnum_Field3 x, SomeEnum_Field3 y => bar_eqb x y
  | SomeEnum_Field4 x1 x2, SomeEnum_Field4 y1 y2 => Z.eqb x1 y1 && Z.eqb x2 y2
  | _, _ => false
  end.

(** [enum SomeEnumChangeset] *)
Inductive SomeEnumChangeset :=
  | SomeEnumChangeset_None (f : SetField Unit)
  | SomeEnumChangeset_Field1 (f : SetField Str)
  | SomeEnumChangeset_Field2 (f : SetField U32)
  | SomeEnumChangeset_Field3 (f : Field Bar BarChangeset unit)
  | SomeEnumChangeset_Field4 (f g : SetField U16).

(** [impl Diff for SomeEnum] *)
Definition someenum_changeset (self other : SomeEnum)
  : Field SomeEnum SomeEnumChangeset unit :=
  if someenum_eqb self other then FNone else
  match self, other with
  | SomeEnum_None, SomeEnum_None =>
      FChanges (SomeEnumChangeset_None (changeset (TScalar Unit) tt tt))
  | SomeEnum_Field1 a, SomeEnum_Field1 b =>
      FChanges (SomeEnumChangeset_Field1 (changeset (TScalar Str) a b))
  | SomeEnum_Field2 a, SomeEnum_Field2 b =>
      FChanges (SomeEnumChangeset_Field2 (changeset (TScalar U32) a b))
  | SomeEnum_Field3 a, SomeEnum_Field3 b =>
      FChanges (SomeEnumChangeset_Field3 (bar_changeset a b))
  | SomeEnum_Field4 a1 a2, SomeEnum_Field4 b1 b2 =>
      FChanges (SomeEnumChangeset_Field4 (changeset (TScalar U16) a1 b1)
                                         (changeset (TScalar U16) a2 b2))
  | _, v => FSet v
  end.

(** [impl Apply<SomeEnum> for SomeEnumChangeset] *)
Definition someenum_cs_apply (c : SomeEnumChangeset) (target : SomeEnum)
  : outcome SomeEnum :=
  match c with
  | SomeEnumChangeset_None _ => Done SomeEnum_None
  | SomeEnumChangeset_Field1 field =>
      match target with
      | SomeEnum_Field1 t =>
          match apply (TScalar Str) field t with
          | Done t' => Done (SomeEnum_Field1 t') | Panic p => Panic p end
      | _ => Panic Unreachable
      end
  | SomeEnumChangeset_Field2 field =>
      match target with
      | SomeEnum_Field2 t =>
          match apply (TScalar U32) field t with
          | Done t' => Done (SomeEnum_Field2 t') | Panic p => Panic p end
      | _ => Panic Unreachable
      end
  | SomeEnumChangeset_Field3 field =>
      match target with
      | SomeEnum_Field3 t =>
          match bar_apply field t with
          | Done t' => Done (SomeEnum_Field3 t') | Panic p => Panic p end
      | _ => Panic Unreachable
      end
  | SomeEnumChangeset_Field4 a b =>
      match target with
      | SomeEnum_Field4 t1 t2 =>
          match apply (TScalar U16) a t1 with
          | Done t1' =>
              match apply (TScalar U16) b t2 with
              | Done t2' => Done (SomeEnum_Field4 t1' t2')
              | Panic p => Panic p
              end
          | Panic p => Panic p
          end
      | _ => Panic Unreachable
      end
  end.

Definition someenum_apply
  : Field SomeEnum SomeEnumChangeset unit -> SomeEnum -> outcome SomeEnum :=
  field_apply someenum_cs_apply (fun _ target => Done target).

(** Variant positions, to state which changeset fits which target. *)
Definition someenum_variant (e : SomeEnum) : nat :=
  match e with
  | SomeEnum_None => 0 | SomeEnum_Field1 _ => 1 | SomeEnum_Field2 _ => 2
  | SomeEnum_Field3 _ => 3 | SomeEnum_Field4 _ _ => 4
  end.

Definition someenum_cs_variant (c : SomeEnumChangeset) : nat :=
  match c with
  | SomeEnumChangeset_None _ => 0 | SomeEnumChangeset_Field1 _ => 1
  | SomeEnumChangeset_Field2 _ => 2 | SomeEnumChangeset_Field3 _ => 3
  | SomeEnumChangeset_Field4 _ _ => 4
  end.

(** [struct Foo], [#[derive(PartialEq)]]. *)
Record Foo := {
  field_a : sval U32;
  field_b : string;
  enumer : SomeEnum;
  bar1 : Bar;
  bar : option Bar;
  vec : list string }.

Definition foo_eqb (a b : Foo) : bool :=
  Z.eqb (field_a a) (field_a b) && String.eqb (field_b a) (field_b b)
  && someenum_eqb (enumer a) (enumer b) && bar_eqb (bar1 a) (bar1 b)
  && option_eqb bar_eqb (bar a) (bar b)
  && list_eqb String.eqb (vec a) (vec b).

(** [struct FooChangeset] (slot [fc_f] for field [f]). *)
Record FooChangeset := {
  fc_field_a : SetField U32;
  fc_field_b : SetField Str;
  fc_enumer : Field SomeEnum SomeEnumChangeset unit;
  fc_bar1 : Field Bar BarChangeset unit;
  fc_bar : Field (option Bar) (OptionChangeset Bar BarChangeset unit) unit;
  fc_vec : FieldOf (TVec (TScalar Str)) }.

(** [impl Diff for Foo]: every slot is the field's own changeset. *)
Definition foo_changeset (self other : Foo) : Field Foo FooChangeset unit :=
  if foo_eqb self other then FNone else
  FChanges {|
    fc_field_a := changeset (TScalar U32) (field_a self) (field_a other);
    fc_field_b := changeset (TScalar Str) (field_b self) (field_b other);
    fc_enumer := someenum_changeset (enumer self) (enumer other);
    fc_bar := option_changeset bar_eqb bar_changeset (bar self) (bar other);
    fc_bar1 := bar_changeset (bar1 self) (bar1 other);
    fc_vec := changeset (TVec (TScalar Str)) (vec self) (vec other) |}.

(** [impl Apply<Foo> for FooChangeset]: the slots in the order
    [field_a], [field_b], [enumer], [bar1], [bar], [vec]. *)
Definition foo_cs_apply (c : FooChangeset) (target : Foo) : outcome Foo :=
  match apply (TScalar U32) (fc_field_a c) (field_a target) with
  | Panic p => Panic p
  | Done a =>
  match apply (TScalar Str) (fc_field_b c) (field_b target) with
  | Panic p => Panic p
  | Done b =>
  match someenum_apply (fc_enumer c) (enumer target) with
  | Panic p => Panic p
  | Done e =>
  match bar_apply (fc_bar1 c) (bar1 target) with
  | Panic p => Panic p
  | Done b1 =>
  match option_apply bar_apply (fc_bar c) (bar target) with
  | Panic p => Panic p
  | Done bo =>
  match apply (TVec (TScalar Str)) (fc_vec c) (vec target) with
  | Panic p => Panic p
  | Done v =>
      Done {| field_a := a; field_b := b; enumer := e; bar1 := b1;
              bar := bo; vec := v |}
  end end end end end end.

Definition foo_apply : Field Foo FooChangeset unit -> Foo -> outcome Foo :=
  field_apply foo_cs_apply (fun _ target => Done target).

(** [Foo::default()] *)
Definition foo_default : Foo :=
  {| field_a := 0%Z; field_b := ""%string; enumer := SomeEnum_None;
     bar1 := {| field_d := ""%string |}; bar := None; vec := [] |}.

(** The values [g] and [f] of the test [basic]. *)
Definition basic_g : Foo :=
  {| field_a := 0%Z; field_b := ""%string; enumer := SomeEnum_Field4 22%Z 44%Z;
     bar1 := {| field_d := ""%string |}; bar := Some {| field_d := "Mongol"%string |};
     vec := ["A"%string; "X"%string; "C"%string] |}.

Definition basic_f : Foo :=
  {| field_a := 123%Z; field_b := "ahahah"%string; enumer := SomeEnum_None;
     bar1 := {| field_d := ""%string |}; bar := Some {| field_d := "Hello"%string |};
     vec := ["A"%string; "B"%string; "C"%string; "D"%string; "D"%string] |}.

(** Equality facts of the derived [PartialEq]s. *)
Lemma bar_eqb_eq a b : bar_eqb a b = true <-> a = b.
Proof.
  destruct a as [x], b as [y]. unfold bar_eqb; simpl.
  rewrite String.eqb_eq. split; congruence.
Qed.

Lemma someenum_eqb_eq a b : someenum_eqb a b = true <-> a = b.
Proof.
  destruct a, b; simpl; try (split; congruence).
  - rewrite String.eqb_eq. split; congruence.
  - rewrite Z.eqb_eq. split; congruence.
  - rewrite bar_eqb_eq. split; congruence.
  - rewrite andb_true_iff, !Z.eqb_eq. split; [intros [-> ->]; done|].
    intros H; injection H as -> ->. done.
Qed.

Lemma option_bar_eqb_eq a b : option_eqb bar_eqb a b = true <-> a = b.
Proof.
  destruct a, b; simpl; try (split; congruence).
  rewrite bar_eqb_eq. split; congruence.
Qed.

Lemma vec_string_eqb_eq (a b : list string) :
  list_eqb String.eqb a b = true <-> a = b.
Proof. exact (eqb_ff (TVec (TScalar Str)) eq_refl a b). Qed.

Lemma foo_eqb_eq a b : foo_eqb a b = true <-> a = b.
Proof.
  unfold foo_eqb. rewrite !andb_true_iff, Z.eqb_eq, String.eqb_eq,
    someenum_eqb_eq, bar_eqb_eq, option_bar_eqb_eq, vec_string_eqb_eq.
  destruct a, b; simpl. split.
  - intros [[[[[-> ->] ->] ->] ->] ->]. done.
  - intros H; injection H as -> -> -> -> -> ->. tauto.
Qed.

Lemma str_roundtrip (a b : string) :
  apply (TScalar Str) (changeset (TScalar Str) a b) a = Done b.
Proof. exact (apply_changeset_ff (TScalar Str) eq_refl a b). Qed.

Lemma int_roundtrip s (Hs : float_free (TScalar s) = true) (a b : sval s) :
  apply (TScalar s) (changeset (TScalar s) a b) a = Done b.
Proof. exact (apply_changeset_ff (TScalar s) Hs a b). Qed.

(** [Bar]: applying [a.changeset(&b)] to [a] yields [b]. *)
Theorem bar_apply_changeset a b : bar_apply (bar_changeset a b) a = Done b.
Proof.
  unfold bar_changeset. destruct (bar_eqb a b) eqn:E.
  - apply bar_eqb_eq in E as ->. done.
  - destruct a as [x], b as [y]. unfold bar_eqb in E; simpl in *.
    rewrite E. done.
Qed.

(** [SomeEnum]: applying [a.changeset(&b)] to [a] yields [b]; a change of
    variant is a wholesale [Set], a change inside one variant is a
    [SomeEnumChangeset] case applied to the payload. *)
Theorem someenum_apply_changeset a b :
  someenum_apply (someenum_changeset a b) a = Done b.
Proof.
  unfold someenum_changeset. destruct (someenum_eqb a b) eqn:E.
  { apply someenum_eqb_eq in E as ->. done. }
  destruct a, b; try done; cbn [someenum_apply field_apply someenum_cs_apply].
  - by rewrite str_roundtrip.
  - by rewrite (int_roundtrip U32 eq_refl).
  - by rewrite bar_apply_changeset.
  - by rewrite !(int_roundtrip U16 eq_refl).
Qed.

(** [SomeEnumChangeset::apply]: the [None] case makes any target
    [SomeEnum::None]; every other case panics ([unreachable!]) on a target
    of another variant. *)
Theorem someenum_cs_apply_variants :
  (forall f target,
     someenum_cs_apply (SomeEnumChangeset_None f) target = Done SomeEnum_None)
  /\ (forall c target,
        someenum_cs_variant c <> 0 ->
        someenum_cs_variant c <> someenum_variant target ->
        someenum_cs_apply c target = Panic Unreachable).
Proof.
  split; [done|].
  intros c target H1 H2. destruct c, target; simpl in *; congruence.
Qed.

Lemma someenum_cs_apply_variants_witness :
  someenum_cs_apply (SomeEnumChangeset_Field2 (FSet 7%Z)) SomeEnum_None
  = Panic Unreachable.
Proof.
  apply (proj2 someenum_cs_apply_variants); simpl; lia.
Defined.

(** [Foo]: applying [g.changeset(&f)] to [g] yields [f], for every pair
    (the test [basic] at every input). *)
Theorem foo_apply_changeset g f : foo_apply (foo_changeset g f) g = Done f.
Proof.
  unfold foo_changeset. destruct (foo_eqb g f) eqn:E.
  { apply foo_eqb_eq in E as ->. done. }
  cbn [foo_apply field_apply]. unfold foo_cs_apply.
  cbn [fc_field_a fc_field_b fc_enumer fc_bar1 fc_bar fc_vec].
  rewrite (int_roundtrip U32 eq_refl), str_roundtrip, someenum_apply_changeset,
    bar_apply_changeset.
  rewrite (option_apply_changeset bar_eqb bar_changeset bar_apply)
    by (intros; by apply bar_eqb_eq || apply bar_apply_changeset).
  rewrite (apply_changeset_ff (TVec (TScalar Str)) eq_refl).
  destruct f; done.
Qed.

Example basic_test :
  foo_apply (foo_changeset basic_g basic_f) basic_g = Done basic_f.
Proof. vm_compute. reflexivity. Qed.

Lemma someenum_changeset_none_iff a b :
  someenum_changeset a b = FNone <-> a = b.
Proof.
  rewrite <- someenum_eqb_eq. unfold someenum_changeset.
  destruct (someenum_eqb a b) eqn:E; [done|]. destruct a, b; done.
Qed.

Lemma bar_changeset_none_iff a b : bar_changeset a b = FNone <-> a = b.
Proof.
  rewrite <- bar_eqb_eq. unfold bar_changeset. destruct (bar_eqb a b); done.
Qed.

Lemma option_bar_changeset_none_iff a b :
  option_changeset bar_eqb bar_changeset a b = FNone <-> a = b.
Proof.
  rewrite <- option_bar_eqb_eq. unfold option_changeset.
  destruct (option_eqb bar_eqb a b) eqn:E; [done|]. destruct a, b; done.
Qed.

Lemma ty_changeset_none_iff t (Hff : float_free t = true) (a b : val t) :
  changeset t a b = FNone <-> a = b.
Proof. rewrite changeset_none_iff. by apply eqb_ff. Qed.

(** Field isolation in [Foo]'s changeset: for unequal values it is
    [Changes(c)] where each slot of [c] is [None] exactly when that field
    is unchanged. *)
Theorem foo_changeset_isolation g f :
  foo_eqb g f = false ->
  exists c, foo_changeset g f = FChanges c
    /\ (fc_field_a c = FNone <-> field_a g = field_a f)
    /\ (fc_field_b c = FNone <-> field_b g = field_b f)
    /\ (fc_enumer c = FNone <-> enumer g = enumer f)
    /\ (fc_bar1 c = FNone <-> bar1 g = bar1 f)
    /\ (fc_bar c = FNone <-> bar g = bar f)
    /\ (fc_vec c = FNone <-> vec g = vec f).
Proof.
  intros E. unfold foo_changeset. rewrite E. eexists. split; [done|].
  cbn [fc_field_a fc_field_b fc_enumer fc_bar1 fc_bar fc_vec].
  rewrite (ty_changeset_none_iff (TScalar U32) eq_refl),
    (ty_changeset_none_iff (TScalar Str) eq_refl),
    someenum_changeset_none_iff, bar_changeset_none_iff,
    option_bar_changeset_none_iff,
    (ty_changeset_none_iff (TVec (TScalar Str)) eq_refl).
  tauto.
Qed.

Lemma foo_changeset_isolation_witness :
  exists c, foo_changeset foo_default {| field_a := 0%Z; field_b := "x"%string;
      enumer := SomeEnum_None; bar1 := {| field_d := ""%string |};
      bar := None; vec := [] |} = FChanges c
    /\ fc_field_a c = FNone /\ fc_field_b c <> FNone.
Proof.
  destruct (foo_changeset_isolation foo_default {| field_a := 0%Z;
      field_b := "x"%string; enumer := SomeEnum_None;
      bar1 := {| field_d := ""%string |}; bar := None; vec := [] |} eq_refl)
    as (c & Hc & Ha & Hb & _).
  exists c. split; [done|]. split.
  - by apply Ha.
  - rewrite Hb. simpl. discriminate.
Defined.

End Tests.

(** ** [structdiff-macro]: the [#[derive(Diff)]] code generator

    The parts of [syn::DeriveInput] the generator inspects, and its
    generated items as data instead of tokens.  A [syn::Path] always has a
    last segment, so a path type is its leading segments and its last one. *)

Module Derive.

Inductive SynType :=
  | TypePath (leading : list PathSegment) (last : PathSegment)
  | TypeOther                       (* reference, tuple, array, slice, ... *)
with PathSegment :=
  | Seg (ident : string) (arguments : PathArguments)
with PathArguments :=
  | ArgsNone
  | AngleBracketed (args : list GenericArgument)
  | Parenthesized
with GenericArgument :=
  | GALifetime
  | GAType (ty : SynType)
  | GAOther.

(** A named field [ident: ty]. *)
Record SynField := { field_ident : string; field_ty : SynType }.

Inductive Fields :=
  | Named (named : list SynField)
  | Unnamed (count : nat)
  | UnitFields.

Inductive Data := DataStruct (fields : Fields) | DataEnum | DataUnion.

Record DeriveInput := { input_ident : string; input_data : Data }.

(** [syn::Error::new_spanned(node, msg)] *)
Inductive Span := SpanInput | SpanField (f : SynField).
Record SynError := { err_span : Span; err_msg : string }.

(** [VecAction<#ty>] (with the type from [first_generic_from_type_path],
    possibly absent) or [()]. *)
Inductive ActionTy := ActVecAction (arg : option SynType) | ActUnit.

(** One slot [#ident : structdiff::Field<#ty, #ty_changeset, #ty_action>]. *)
Record SlotDecl := {
  slot_ident : string;
  slot_ty : SynType;
  slot_changeset : list PathSegment * PathSegment;
  slot_action : ActionTy }.

(** [#[derive(Debug, Default)] pub struct #ty_name { #(#mappings),* }] *)
Record ChangesetStruct := { cs_name : string; cs_slots : list SlotDecl }.

(** [impl structdiff::Diff for #ty]: its [Changeset] type and the fields of
    its [changes.#f = self.#f.changeset(&other.#f);] lines, in order. *)
Record DiffImpl := {
  impl_for : string; impl_changeset : string; impl_changes : list string }.

Record DeriveOutput := {
  out_changeset_struct : ChangesetStruct; out_diff_impl : DiffImpl }.

Fixpoint find_map {A B} (f : A -> option B) (l : list A) : option B :=
  match l with
  | [] => None
  | x :: l' => match f x with Some y => Some y | None => find_map f l' end
  end.

Section Gen.

(** [heck::CamelCase::to_camel_case], an external crate: left abstract. *)
Variable to_camel_case : string -> string.

Definition gen_changeset_ident (ty : string) : string :=
  to_camel_case (ty ++ "_Changeset").

Definition gen_changeset_path (leading : list PathSegment) (last : PathSegment)
  : list PathSegment * PathSegment :=
  match last with
  | Seg s a => (leading, Seg (to_camel_case (s ++ "_Changeset")) a)
  end.

Definition first_generic_from_type_path (ty : SynType) : option SynType :=
  match ty with
  | TypePath _ (Seg _ (AngleBracketed args)) =>
      find_map (fun x => match x with GAType t => Some t | _ => None end) args
  | _ => None
  end.

Definition seg_ident (s : PathSegment) : string :=
  match s with Seg i _ => i end.

(** The closure mapped over the fields in [gen_changeset_struct]. *)
Definition gen_slot (field : SynField) : Result SlotDecl SynError :=
  match field_ty field with
  | TypePath leading last =>
      let ty_changeset := gen_changeset_path leading last in
      let ty_action :=
        if String.prefix "Vec" (seg_ident (snd ty_changeset))
        then ActVecAction (first_generic_from_type_path (field_ty field))
        else ActUnit in
      Ok {| slot_ident := field_ident field; slot_ty := field_ty field;
            slot_changeset := ty_changeset; slot_action := ty_action |}
  | TypeOther =>
      Err {| err_span := SpanField field;
             err_msg := "Only path types are supported" |}
  end.

(** [.collect::<Result<Vec<_>, _>>()]: stops at the first [Err]. *)
Fixpoint collect_slots (fields : list SynField) : Result (list SlotDecl) SynError :=
  match fields with
  | [] => Ok []
  | f :: fs =>
      match gen_slot f with
      | Err e => Err e
      | Ok s => match collect_slots fs with Ok ss => Ok (s :: ss) | Err e => Err e end
      end
  end.

Definition gen_changeset_struct (ty : string) (fields : list SynField)
  : Result ChangesetStruct SynError :=
  match collect_slots fields with
  | Ok mappings => Ok {| cs_name := gen_changeset_ident ty; cs_slots := mappings |}
  | Err e => Err e
  end.

Definition gen_impl_diff (ty : string) (fields : list SynField) : DiffImpl :=
  {| impl_for := ty; impl_changeset := gen_changeset_ident ty;
     impl_changes := map field_ident fields |}.

Definition derive (input : DeriveInput) : Result DeriveOutput SynError :=
  match input_data input with
  | DataEnum => Err {| err_span := SpanInput; err_msg := "Enums not supported" |}
  | DataUnion => Err {| err_span := SpanInput; err_msg := "Unions not supported" |}
  | DataStruct (Unnamed _) =>
      Err {| err_span := SpanInput; err_msg := "Unnamed fields not supported" |}
  | DataStruct UnitFields =>
      Err {| err_span := SpanInput; err_msg := "Unsized struct not supported" |}
  | DataStruct (Named fields) =>
      let diff_impl := gen_impl_diff (input_ident input) fields in
      match gen_changeset_struct (input_ident input) fields with
      | Err e => Err e
      | Ok changeset_struct =>
          Ok {| out_changeset_struct := changeset_struct; out_diff_impl := diff_impl |}
      end
  end.

(** [structdiff_derive] (crate [structdiff-derive]): the tokens, or a
    [compile_error!] at the error's span with its message. *)
Inductive MacroOutput :=
  | Tokens (out : DeriveOutput)
  | CompileError (span : Span) (msg : string).

Definition structdiff_derive (input : DeriveInput) : MacroOutput :=
  match derive input with
  | Ok tokens => Tokens tokens
  | Err err => CompileError (err_span err) (err_msg err)
  end.

Definition is_path_type (t : SynType) : bool :=
  match t with TypePath _ _ => true | TypeOther => false end.

Lemma gen_slot_ok f :
  is_path_type (field_ty f) = true ->
  exists s, gen_slot f = Ok s /\ slot_ident s = field_ident f /\ slot_ty s = field_ty f.
Proof.
  unfold gen_slot. destruct (field_ty f) eqn:E; [|discriminate].
  intros _. eexists; split; [reflexivity|]. simpl. auto.
Qed.

Lemma gen_slot_ok_inv f s :
  gen_slot f = Ok s ->
  is_path_type (field_ty f) = true /\ slot_ident s = field_ident f /\ slot_ty s = field_ty f.
Proof.
  unfold gen_slot. destruct (field_ty f) eqn:E; [|discriminate].
  intros H. injection H as <-. simpl. auto.
Qed.

Lemma collect_slots_ok fs :
  Forall (fun f => is_path_type (field_ty f) = true) fs ->
  exists ss, collect_slots fs = Ok ss /\
    map slot_ident ss = map field_ident fs /\ map slot_ty ss = map field_ty fs.
Proof.
  induction 1 as [|f fs Hf _ IH]; [exists []; auto|].
  destruct (gen_slot_ok f Hf) as (s & Hs & Hi & Ht).
  destruct IH as (ss & Hss & Hi' & Ht').
  exists (s :: ss). simpl. rewrite Hs, Hss. simpl.
  rewrite Hi, Ht, Hi', Ht'. auto.
Qed.

Lemma collect_slots_ok_inv fs ss :
  collect_slots fs = Ok ss ->
  Forall (fun f => is_path_type (field_ty f) = true) fs /\
    map slot_ident ss = map field_ident fs /\ map slot_ty ss = map field_ty fs.
Proof.
  revert ss. induction fs as [|f fs IH]; intros ss H.
  - simpl in H. injection H as <-. auto.
  - simpl in H. destruct (gen_slot f) as [s|e] eqn:Hs; [|discriminate].
    destruct (collect_slots fs) as [ss'|e] eqn:Hss; [|discriminate].
    injection H as <-.
    destruct (gen_slot_ok_inv f s Hs) as (Hp & Hi & Ht).
    destruct (IH ss' eq_refl) as (Hf & Hi' & Ht').
    simpl. rewrite Hi, Ht, Hi', Ht'. auto.
Qed.

Lemma collect_slots_first_err pre f post :
  Forall (fun g => is_path_type (field_ty g) = true) pre ->
  field_ty f = TypeOther ->
  collect_slots (pre ++ f :: post) =
    Err {| err_span := SpanField f; err_msg := "Only path types are supported" |}.
Proof.
  intros Hpre Hf. induction Hpre as [|g pre Hg _ IH].
  - simpl. unfold gen_slot at 1. rewrite Hf. reflexivity.
  - simpl. destruct (gen_slot_ok g Hg) as (s & Hs & _). rewrite Hs, IH. reflexivity.
Qed.

(** The derive succeeds exactly on a struct with named fields whose types
    are all path types; an enum, a union, a tuple struct or a unit struct,
    or a field of any other type, makes it fail. *)
Theorem derive_ok_iff input :
  (exists out, derive input = Ok out) <->
  exists fields, input_data input = DataStruct (Named fields) /\
    Forall (fun f => is_path_type (field_ty f) = true) fields.
Proof.
  unfold derive. split.
  - intros [out H].
    destruct (input_data input) as [[fields|n|]| |]; try discriminate.
    unfold gen_changeset_struct in H.
    destruct (collect_slots fields) as [ss|e] eqn:Hc; [|discriminate].
    exists fields. split; [reflexivity|].
    exact (proj1 (collect_slots_ok_inv fields ss Hc)).
  - intros (fields & Hd & Hall). rewrite Hd.
    destruct (collect_slots_ok fields Hall) as (ss & Hss & _).
    unfold gen_changeset_struct. rewrite Hss. eexists; reflexivity.
Qed.

(** On a struct with named fields, the first field whose type is not a path
    type is reported: the macro expands to a [compile_error!] spanned on
    that field, with the message "Only path types are supported", whatever
    the fields after it. *)
Theorem derive_first_non_path_field name pre f post
  (Hpre : Forall (fun g => is_path_type (field_ty g) = true) pre)
  (Hf : field_ty f = TypeOther) :
  structdiff_derive
    {| input_ident := name; input_data := DataStruct (Named (pre ++ f :: post)) |} =
  CompileError (SpanField f) "Only path types are supported".
Proof.
  unfold structdiff_derive, derive, gen_changeset_struct. simpl.
  rewrite (collect_slots_first_err pre f post Hpre Hf). reflexivity.
Qed.

(** What the derive generates is consistent: the changeset struct has one
    slot per field, with the field's name and type, in the order of the
    fields; the [Diff] impl assigns exactly those slots, in that order; and
    the impl's [Changeset] type is the generated struct. *)
Theorem derive_consistent input out
  (H : derive input = Ok out) :
  exists fields, input_data input = DataStruct (Named fields) /\
    map slot_ident (cs_slots (out_changeset_struct out)) = map field_ident fields /\
    map slot_ty (cs_slots (out_changeset_struct out)) = map field_ty fields /\
    impl_changes (out_diff_impl out) = map field_ident fields /\
    impl_for (out_diff_impl out) = input_ident input /\
    impl_changeset (out_diff_impl out) = cs_name (out_changeset_struct out).
Proof.
  unfold derive in H.
  destruct (input_data input) as [[fields|n|]| |]; try discriminate.
  unfold gen_changeset_struct in H.
  destruct (collect_slots fields) as [ss|e] eqn:Hc; [|discriminate].
  injection H as <-. simpl.
  destruct (collect_slots_ok_inv fields ss Hc) as (_ & Hi & Ht).
  exists fields. repeat split; assumption.
Qed.

(** A field [f: Vec<T>] (a path ending in [Vec<T>]) gets the slot
    [f: Field<Vec<T>, VecChangeset<T>, VecAction<T>>], the Changeset and
    Action types of the library's [Vec<T>] impl, provided heck camel-cases
    [Vec_Changeset] to [VecChangeset]. *)
Theorem derive_vec_field_slot name pre fname lead t post
  (Hcamel : to_camel_case "Vec_Changeset" = "VecChangeset"%string)
  (Hpre : Forall (fun g => is_path_type (field_ty g) = true) pre)
  (Hpost : Forall (fun g => is_path_type (field_ty g) = true) post) :
  let f := {| field_ident := fname;
              field_ty := TypePath lead (Seg "Vec" (AngleBracketed [GAType t])) |} in
  exists out, derive {| input_ident := name; input_data := DataStruct (Named (pre ++ f :: post)) |} = Ok out /\
    cs_slots (out_changeset_struct out) !! length pre =
      Some {| slot_ident := fname;
              slot_ty := TypePath lead (Seg "Vec" (AngleBracketed [GAType t]));
              slot_changeset := (lead, Seg "VecChangeset" (AngleBracketed [GAType t]));
              slot_action := ActVecAction (Some t) |}.
Proof.
  intros f. unfold derive, gen_changeset_struct. simpl.
  destruct (collect_slots_ok pre Hpre) as (ss1 & H1 & Hi1 & _).
  destruct (collect_slots_ok post Hpost) as (ss2 & H2 & _).
  assert (Happ : forall l1 l2 r1 r2, collect_slots l1 = Ok r1 -> collect_slots l2 = Ok r2 ->
            collect_slots (l1 ++ l2) = Ok (r1 ++ r2)).
  { induction l1 as [|g l1 IH]; intros l2 r1 r2 Ha Hb.
    - simpl in Ha. injection Ha as <-. exact Hb.
    - simpl in Ha |- *. destruct (gen_slot g) as [s|e]; [|discriminate].
      destruct (collect_slots l1) as [q|e]; [|discriminate].
      injection Ha as <-. rewrite (IH l2 q r2 eq_refl Hb). reflexivity. }
  assert (Hf : collect_slots (f :: post) =
            Ok ({| slot_ident := fname;
                   slot_ty := TypePath lead (Seg "Vec" (AngleBracketed [GAType t]));
                   slot_changeset := (lead, Seg "VecChangeset" (AngleBracketed [GAType t]));
                   slot_action := ActVecAction (Some t) |} :: ss2)).
  { simpl. rewrite H2. unfold gen_slot, gen_changeset_path. simpl. rewrite Hcamel.
    reflexivity. }
  rewrite (Happ _ _ _ _ H1 Hf).
  eexists; split; [reflexivity|]. simpl.
  assert (Hl : length pre = length ss1).
  { rewrite <- (length_map slot_ident ss1), Hi1, length_map. reflexivity. }
  rewrite Hl. apply list_lookup_middle. reflexivity.
Qed.

End Gen.

(** heck's [to_camel_case] on the identifiers above (underscores dropped). *)
Definition camel_sample (s : string) : string :=
  if String.eqb s "Vec_Changeset" then "VecChangeset"
  else if String.eqb s "Time_Changeset" then "TimeChangeset"
  else s.

Definition u32_path : SynType := TypePath [] (Seg "u32" ArgsNone).

Definition ref_field : SynField :=
  {| field_ident := "name"; field_ty := TypeOther |}.

Lemma derive_first_non_path_field_witness :
  structdiff_derive camel_sample
    {| input_ident := "Time";
       input_data := DataStruct (Named ([{| field_ident := "secs"; field_ty := u32_path |}]
                                        ++ ref_field :: [{| field_ident := "x"; field_ty := TypeOther |}])) |} =
  CompileError (SpanField ref_field) "Only path types are supported".
Proof.
  apply derive_first_non_path_field.
  - constructor; [reflexivity | constructor].
  - reflexivity.
Defined.

Lemma derive_consistent_witness :
  exists fields,
    input_data {| input_ident := "Time";
                  input_data := DataStruct (Named [{| field_ident := "secs"; field_ty := u32_path |}]) |}
      = DataStruct (Named fields).
Proof.
  destruct (derive_consistent camel_sample
    {| input_ident := "Time";
       input_data := DataStruct (Named [{| field_ident := "secs"; field_ty := u32_path |}]) |}
    {| out_changeset_struct :=
         {| cs_name := "TimeChangeset";
            cs_slots := [{| slot_ident := "secs"; slot_ty := u32_path;
                            slot_changeset := ([], Seg "u32_Changeset" ArgsNone);
                            slot_action := ActUnit |}] |};
       out_diff_impl := {| impl_for := "Time"; impl_changeset := "TimeChangeset";
                           impl_changes := ["secs"%string] |} |}
    ltac:(vm_compute; reflexivity)) as (fields & Hd & _).
  exists fields. exact Hd.
Defined.

Lemma derive_vec_field_slot_witness :
  exists out,
    derive camel_sample
      {| input_ident := "Time";
         input_data := DataStruct (Named ([{| field_ident := "secs"; field_ty := u32_path |}]
           ++ {| field_ident := "items";
                 field_ty := TypePath [] (Seg "Vec" (AngleBracketed [GAType u32_path])) |} :: [])) |}
      = Ok out.
Proof.
  destruct (derive_vec_field_slot camel_sample "Time"
    [{| field_ident := "secs"; field_ty := u32_path |}] "items" [] u32_path []
    ltac:(reflexivity)
    ltac:(constructor; [reflexivity | constructor])
    ltac:(constructor)) as (out & Hout & _).
  exists out. exact Hout.
Defined.

End Derive.
